(** * ndarray/base/fill: filling a strided ndarray with a scalar

    A shallow embedding of [lib/main.js].  The function [fill] sequences
    four collaborators that live in other packages
    ([isScalarMostlySafeCompatible], [broadcastScalar], [assign] and
    [format]); they are modelled here from the specification (sections 4.1
    to 4.3), each under a comment that says so.  JavaScript objects live in
    a store, so that in-place mutation and aliasing are explicit. *)

From Stdlib Require Import ZArith Lia String Ascii List Floats.
From stdpp Require Import base option list gmap.

Open Scope Z_scope.

(** ** Element types *)

Inductive IntWidth := W8 | W16 | W32.

Inductive Precision := Single | Double.

(** Modelled from the spec: the element types of section 3, signed and
    unsigned integers of fixed widths, IEEE floating-point widths, and
    complex variants pairing two floating-point components (the dtypes of
    package [ndarray-dtypes], of which the source names ['float64']). *)
Inductive ElementType :=
| TInt (signed : bool) (w : IntWidth)
| TFloat (p : Precision)
| TComplex (p : Precision).

Abbreviation int8 := (TInt true W8).
Abbreviation uint8 := (TInt false W8).
Abbreviation int16 := (TInt true W16).
Abbreviation uint16 := (TInt false W16).
Abbreviation int32 := (TInt true W32).
Abbreviation uint32 := (TInt false W32).
Abbreviation float32 := (TFloat Single).
Abbreviation float64 := (TFloat Double).
Abbreviation complex64 := (TComplex Single).
Abbreviation complex128 := (TComplex Double).

Inductive Kind := integer | floating | complex.

Definition kind (t : ElementType) : Kind :=
  match t with
  | TInt _ _ => integer
  | TFloat _ => floating
  | TComplex _ => complex
  end.

Definition int_bits (w : IntWidth) : Z :=
  match w with W8 => 8 | W16 => 16 | W32 => 32 end.

(** In the source a dtype is a string ([x.dtype]); this is the string of
    each element type, as it is printed by [format]. *)
Definition dtype_name (t : ElementType) : string :=
  match t with
  | TInt true W8 => "int8"
  | TInt false W8 => "uint8"
  | TInt true W16 => "int16"
  | TInt false W16 => "uint16"
  | TInt true W32 => "int32"
  | TInt false W32 => "uint32"
  | TFloat Single => "float32"
  | TFloat Double => "float64"
  | TComplex Single => "complex64"
  | TComplex Double => "complex128"
  end.

#[global] Instance IntWidth_eq_dec : EqDecision IntWidth.
Proof. solve_decision. Defined.

#[global] Instance Precision_eq_dec : EqDecision Precision.
Proof. solve_decision. Defined.

#[global] Instance ElementType_eq_dec : EqDecision ElementType.
Proof. solve_decision. Defined.

(** ** Numbers *)

(** A JavaScript number is a binary64 float.  [fround] rounds it to the
    nearest binary32 value (ties to even), which is what a single-precision
    buffer keeps of it. *)
Definition fround (x : float) : float :=
  match Prim2SF x with
  | S754_finite s m e =>
      SF2Prim (binary_normalize 24 128 (if s then Z.neg m else Z.pos m) e s)
  | _ => x
  end.

Definition to_precision (p : Precision) (x : float) : float :=
  match p with
  | Single => fround x
  | Double => x
  end.

(** The binary64 float nearest to an integer (exact below 2^53). *)
Definition Z2float (z : Z) : float :=
  SF2Prim (binary_normalize prec emax z 0 false).

Definition mantissa_bits (p : Precision) : Z :=
  match p with Single => 24 | Double => 53 end.


(** ** Scalars *)

(** Modelled from the spec: the scalar handed to [fill], together with its
    natural element type (section 4.1 speaks of the value's natural
    representation and of its kind).  The source receives [value] untyped;
    the classification happens inside [isScalarMostlySafeCompatible], which
    is not part of this package.  A stored element is a scalar whose natural
    type is the element type of its buffer.  A JavaScript number carries no
    kind of its own: 3.0 is the number 3, which is the integer scalar 3 of
    any integer type that holds it as well as the double 3; a number with
    a fractional part is a floating scalar only. *)
Inductive Scalar :=
| SInt (signed : bool) (w : IntWidth) (n : Z)
| SFloat (p : Precision) (r : float)
| SComplex (p : Precision) (re im : float).

Definition natural_type (v : Scalar) : ElementType :=
  match v with
  | SInt sg w _ => TInt sg w
  | SFloat p _ => TFloat p
  | SComplex p _ _ => TComplex p
  end.

(** A real (non-complex) scalar. *)
Definition is_real (v : Scalar) : bool :=
  match v with
  | SComplex _ _ _ => false
  | _ => true
  end.

(** The binary64 number a real scalar denotes. *)
Definition real_value (v : Scalar) : float :=
  match v with
  | SInt _ _ n => Z2float n
  | SFloat _ r => r
  | SComplex _ re _ => re
  end.

(** ** CastPolicy (specification, section 4.1) *)

Definition int_min (sg : bool) (w : IntWidth) : Z :=
  if sg then - 2 ^ (int_bits w - 1) else 0.

Definition int_max (sg : bool) (w : IntWidth) : Z :=
  if sg then 2 ^ (int_bits w - 1) - 1 else 2 ^ int_bits w - 1.

Definition precision_le (p q : Precision) : bool :=
  match p, q with
  | Double, Single => false
  | _, _ => true
  end.

(** Modelled from the spec: rule 2 of section 4.1, the safe casts: an
    integer widening (every value of the source type is a value of the
    target type, so that a change of sign that loses values is not safe, as
    section 9 asks), an integer-to-floating widening that preserves
    magnitude, and any real-to-complex promotion. *)
Definition is_safe_cast (from to : ElementType) : bool :=
  match from, to with
  | TInt sf wf, TInt st wt =>
      (int_min st wt <=? int_min sf wf) && (int_max sf wf <=? int_max st wt)
  | TInt _ wf, TFloat p => int_bits wf <=? mantissa_bits p
  | TFloat p, TFloat q => precision_le p q
  | TComplex p, TComplex q => precision_le p q
  | (TInt _ _ | TFloat _), TComplex _ => true
  | _, _ => false
  end.

(** Modelled from the spec: rule 3 of section 4.1, the same-kind downcast
    between floating-point types (real to real, complex to complex; rule 4
    keeps a complex value out of a real target). *)
Definition is_same_kind_float_downcast (from to : ElementType) : bool :=
  match from, to with
  | TFloat _, TFloat _ => true
  | TComplex _, TComplex _ => true
  | _, _ => false
  end.

(** Modelled from the spec: [isScalarMostlySafeCompatible( value, dtype )]
    of package [ndarray-base-assert-is-scalar-mostly-safe-compatible], by
    the four rules of section 4.1 in their priority order. *)
Definition isScalarMostlySafeCompatible (value : Scalar) (dt : ElementType) : bool :=
  if decide (natural_type value = dt) then true
  else if is_safe_cast (natural_type value) dt then true
  else if is_same_kind_float_downcast (natural_type value) dt then true
  else false.

(** ** Casting a scalar (specification, section 4.2) *)

(** Modelled from the spec: the cast of a scalar into the in-memory
    representation of an element type.  A value already of that type is
    kept; an integer goes to an integer type unchanged and to a floating
    type as the nearest number of that precision; a floating number is
    rounded to the precision of the target; a real scalar becomes a complex
    number with that real component and a zero imaginary component; the
    components of a complex number are rounded to the target's precision.
    The specification gives no representation for a floating or complex
    value in an integer type, nor for a complex value in a real type. *)
Definition cast (dt : ElementType) (value : Scalar) : option Scalar :=
  if decide (natural_type value = dt) then Some value
  else
    match dt, value with
    | TInt sg w, SInt _ _ n => Some (SInt sg w n)
    | TFloat p, SInt _ _ n => Some (SFloat p (to_precision p (Z2float n)))
    | TFloat p, SFloat _ r => Some (SFloat p (to_precision p r))
    | TComplex p, SInt _ _ n => Some (SComplex p (to_precision p (Z2float n)) 0%float)
    | TComplex p, SFloat _ r => Some (SComplex p (to_precision p r) 0%float)
    | TComplex p, SComplex _ re im =>
        Some (SComplex p (to_precision p re) (to_precision p im))
    | _, _ => None
    end.

(** ** The store *)

Inductive Order := row_major | column_major.

Abbreviation loc := positive.

(** An ndarray-like object, with the six properties the source documents
    ([dtype], [data], [shape], [strides], [offset], [order]); [data] is a
    reference to the buffer. *)
Record ndarray := mk_ndarray {
  dtype : ElementType;
  data : loc;
  shape : list nat;
  strides : list Z;
  offset : Z;
  order : Order
}.

Inductive object :=
| ONdarray (a : ndarray)
| OBuffer (elements : list Scalar).

(** The machine state: the objects, and the number of element stores
    executed so far (the measure of work of section 5). *)
Record state := mk_state {
  heap : gmap loc object;
  stores : nat
}.

Inductive jsval :=
| undefined
| ref (l : loc).

(** [BadObject] stands for a reference that designates no object of the
    expected class; no JavaScript caller of [fill] with an ndarray-like
    argument reaches it. *)
Inductive error :=
| TypeError (msg : string)
| UnsupportedCastKind
| ShapeMismatch
| BadObject.

Inductive result (A : Type) :=
| Return (a : A)
| Throw (e : error).

Arguments Return {A} a.
Arguments Throw {A} e.

(** Computations read and update the state, and either return or throw;
    what was written before a throw stays written. *)
Definition M (A : Type) : Type := state -> result A * state.

Definition ret {A} (a : A) : M A := fun s => (Return a, s).

Definition throw {A} (e : error) : M A := fun s => (Throw e, s).

Definition bind {A B} (m : M A) (k : A -> M B) : M B :=
  fun s =>
    match m s with
    | (Return a, s') => k a s'
    | (Throw e, s') => (Throw e, s')
    end.

Notation "'do' x <- m ; k" := (bind m (fun x => k))
  (at level 10, x name, m at level 100, k at level 200,
   format "'[v' 'do'  x  <-  m ; '/' k ']'").

Fixpoint for_each {A} (l : list A) (f : A -> M unit) : M unit :=
  match l with
  | [] => ret tt
  | a :: l' => do _ <- f a; for_each l' f
  end.

Definition get_ndarray (x : loc) : M ndarray :=
  fun s =>
    match heap s !! x with
    | Some (ONdarray a) => (Return a, s)
    | _ => (Throw BadObject, s)
    end.

Definition alloc (o : object) : M loc :=
  fun s =>
    let l := fresh (dom (heap s)) in
    (Return l, mk_state (<[l := o]> (heap s)) (stores s)).

(** [buf[ i ]]: reading outside the buffer gives no element. *)
Definition load (b : loc) (i : Z) : M (option Scalar) :=
  fun s =>
    match heap s !! b with
    | Some (OBuffer els) =>
        (Return (if 0 <=? i then els !! Z.to_nat i else None), s)
    | _ => (Throw BadObject, s)
    end.

(** The elements of a typed buffer after [buf[ i ] = e]: an index outside
    the buffer changes no element. *)
Definition write (els : list Scalar) (i : Z) (e : Scalar) : list Scalar :=
  if 0 <=? i then <[Z.to_nat i := e]> els else els.

Definition store (b : loc) (i : Z) (e : Scalar) : M unit :=
  fun s =>
    match heap s !! b with
    | Some (OBuffer els) =>
        (Return tt, mk_state (<[b := OBuffer (write els i e)]> (heap s)) (S (stores s)))
    | _ => (Throw BadObject, s)
    end.

(** ** Accessors (packages [ndarray-base-dtype], [-shape], [-order]) *)

(** Modelled from the spec: the descriptor accessors of section 6, which
    read a property of the ndarray-like object. *)
Definition getDtype (x : loc) : M ElementType :=
  do a <- get_ndarray x; ret (dtype a).

Definition getShape (x : loc) : M (list nat) :=
  do a <- get_ndarray x; ret (shape a).

Definition getOrder (x : loc) : M Order :=
  do a <- get_ndarray x; ret (order a).

(** ** Formatting (package [string-format]) *)

(** Modelled from the spec: [format( template, ...args )] of package
    [string-format], by which the message names the element type and the
    rejected value (section 4.4, step 2).  Only the [%s] specifier is
    interpreted, the only one in the template of [fill]: each [%s] is
    replaced by the next argument, and a [%s] with no argument left is
    kept. *)
Fixpoint format (template : string) (args : list string) : string :=
  match template with
  | EmptyString => EmptyString
  | String c rest =>
      match rest, args with
      | String d rest', a :: args' =>
          if (Ascii.eqb c "%" && Ascii.eqb d "s")%bool
          then (a ++ format rest' args')%string
          else String c (format rest args)
      | _, _ => String c (format rest args)
      end
  end.

(** ** ScalarBroadcastView (specification, section 4.2) *)

(** Modelled from the spec: [broadcastScalar( value, dtype, shape, order )]
    of package [ndarray-base-broadcast-scalar]: a fresh one-element buffer
    holding the cast value, and a fresh descriptor of the requested shape
    (copied) whose strides are all zero, with offset 0 and the given order. *)
Definition broadcastScalar (value : Scalar) (dt : ElementType)
    (sh : list nat) (o : Order) : M loc :=
  match cast dt value with
  | None => throw UnsupportedCastKind
  | Some e =>
      do b <- alloc (OBuffer [e]);
      alloc (ONdarray (mk_ndarray dt b sh (map (fun _ => 0) sh) 0 o))
  end.

(** ** StridedAssign (specification, section 4.3) *)

(** The total element count of a shape. *)
Definition numel (sh : list nat) : nat := foldr Nat.mul 1%nat sh.

(** Every multi-index of a shape, the last dimension varying fastest. *)
Fixpoint indices (sh : list nat) : list (list nat) :=
  match sh with
  | [] => [[]]
  | n :: sh' => flat_map (fun i => map (cons i) (indices sh')) (seq 0 n)
  end.

(** Modelled from the spec: the order of visit of section 4.3, honouring
    the order literally: row-major has the last dimension fastest,
    column-major the first. *)
Definition traversal (o : Order) (sh : list nat) : list (list nat) :=
  match o with
  | row_major => indices sh
  | column_major => map reverse (indices (reverse sh))
  end.

Fixpoint dot (idx : list nat) (st : list Z) : Z :=
  match idx, st with
  | i :: idx', s :: st' => Z.of_nat i * s + dot idx' st'
  | _, _ => 0
  end.

(** The buffer position of a multi-index: offset + sum of index * stride. *)
Definition position (a : ndarray) (idx : list nat) : Z :=
  offset a + dot idx (strides a).

(** Modelled from the spec: one step of the traversal of section 4.3: read
    the source element at the index, cast it to the destination's element
    type, store it at the destination's position.  A source position
    outside the source buffer (a violated precondition) stores nothing. *)
Definition assign_element (src dst : ndarray) (idx : list nat) : M unit :=
  do o <- load (data src) (position src idx);
  match o with
  | None => ret tt
  | Some e =>
      match cast (dtype dst) e with
      | None => throw UnsupportedCastKind
      | Some e' => store (data dst) (position dst idx) e'
      end
  end.

(** Modelled from the spec: [assign( [ src, dst ] )] of package
    [ndarray-base-assign]: shapes must agree, a shape with no element is a
    no-op, and otherwise every multi-index is visited once, in the order of
    the destination. *)
Definition assign (src dst : loc) : M unit :=
  do s <- get_ndarray src;
  do d <- get_ndarray dst;
  if decide (shape s = shape d) then
    if Nat.eqb (numel (shape d)) 0 then ret tt
    else for_each (traversal (order d) (shape d)) (assign_element s d)
  else throw ShapeMismatch.

(** ** fill (lib/main.js) *)

Definition template : string :=
  "invalid argument. The second argument cannot be safely cast to the input array data type. Data type: %s. Value: `%s`.".

Section Fill.

(** The string conversion that [format] applies to a [%s] argument that is
    not a string (JavaScript's [String( value )]). *)
Variable ToString : Scalar -> string.

(** [fill( x, value )], statement by statement.  The function has no
    [return] statement: a normal completion yields [undefined]. *)
Definition fill (x : loc) (value : Scalar) : M jsval :=
  do dt <- getDtype x;
  if negb (isScalarMostlySafeCompatible value dt) then
    throw (TypeError (format template [dtype_name dt; ToString value]))
  else
    do sh <- getShape x;
    do o <- getOrder x;
    do v <- broadcastScalar value dt sh o;
    do _ <- assign v x;
    ret undefined.

End Fill.

(** ** Reading an ndarray back *)

(** A multi-index is valid for a shape when it has one index per dimension,
    each below the size of its dimension. *)
Definition valid_index (sh : list nat) (idx : list nat) : Prop :=
  Forall2 (fun i n => (i < n)%nat) idx sh.

(** The element of [x] at a multi-index, through [x]'s own strides and
    offset. *)
Definition read (h : gmap loc object) (x : loc) (idx : list nat) : option Scalar :=
  match h !! x with
  | Some (ONdarray a) =>
      match h !! data a with
      | Some (OBuffer els) =>
          if 0 <=? position a idx then els !! Z.to_nat (position a idx) else None
      | _ => None
      end
  | _ => None
  end.

(** The invariant of section 3: [x] designates the descriptor [a], the data
    of [a] is a buffer of the store, and every valid multi-index addresses
    a position inside that buffer. *)
Definition well_formed (h : gmap loc object) (x : loc) (a : ndarray) : Prop :=
  h !! x = Some (ONdarray a) /\
  exists els,
    h !! data a = Some (OBuffer els) /\
    forall idx, valid_index (shape a) idx ->
      0 <= position a idx < Z.of_nat (length els).

(** The bounds part of the invariant, as a check over the multi-indices. *)
Definition in_bounds (a : ndarray) (n : nat) : bool :=
  forallb (fun idx => (0 <=? position a idx) && (position a idx <? Z.of_nat n))
          (indices (shape a)).

(** A string occurs in another one. *)
Definition occurs_in (sub s : string) : Prop :=
  exists pre post, s = (pre ++ sub ++ post)%string.

(** ** Example inputs *)

(** The example of the documentation: a float64 buffer [1..6] viewed with
    shape [3,1,2], strides [2,2,1], offset 0, row-major. *)
Definition readme_buffer : list Scalar :=
  map (SFloat Double) [1%float; 2%float; 3%float; 4%float; 5%float; 6%float].

Definition readme_x : ndarray :=
  mk_ndarray float64 2%positive [3; 1; 2]%nat [2; 2; 1] 0 row_major.

Definition readme_state : state :=
  mk_state (<[1%positive := ONdarray readme_x]>
             (<[2%positive := OBuffer readme_buffer]> ∅)) 0.

(** An int32 vector of two elements. *)
Definition int32_x : ndarray :=
  mk_ndarray int32 2%positive [2]%nat [1] 0 row_major.

Definition int32_state : state :=
  mk_state (<[1%positive := ONdarray int32_x]>
             (<[2%positive := OBuffer [SInt true W32 1; SInt true W32 2]]> ∅)) 0.

(** A complex64 vector of two elements. *)
Definition complex64_x : ndarray :=
  mk_ndarray complex64 2%positive [2]%nat [1] 0 row_major.

Definition complex64_state : state :=
  mk_state (<[1%positive := ONdarray complex64_x]>
             (<[2%positive := OBuffer [SComplex Single 1 2; SComplex Single 3 4]]> ∅)) 0.

(** The double 2^24 + 1, which no single-precision number equals. *)
Definition odd_double : Scalar := SFloat Double 16777217.

(** A float64 array of shape [2,0] over a buffer of one element. *)
Definition empty_x : ndarray :=
  mk_ndarray float64 2%positive [2; 0]%nat [0; 1] 0 row_major.

Definition empty_state : state :=
  mk_state (<[1%positive := ONdarray empty_x]>
             (<[2%positive := OBuffer [SFloat Double 7]]> ∅)) 0.

(** Two float64 views of shape [2,3] over different buffers: one row-major
    from offset 0, one column-major with negative strides from offset 5 of
    a longer buffer. *)
Definition rows_x : ndarray :=
  mk_ndarray float64 3%positive [2; 3]%nat [3; 1] 0 row_major.

Definition columns_x : ndarray :=
  mk_ndarray float64 4%positive [2; 3]%nat [-1; -2] 5 column_major.

Definition two_views_state : state :=
  mk_state (<[1%positive := ONdarray rows_x]>
             (<[2%positive := ONdarray columns_x]>
               (<[3%positive := OBuffer readme_buffer]>
                 (<[4%positive := OBuffer (readme_buffer ++ readme_buffer)]> ∅)))) 0.

(** Two views of one float64 buffer of six elements: the 2 x 3 row-major
    view, and its transpose, the 3 x 2 view with the strides exchanged. *)
Definition transposed_x : ndarray :=
  mk_ndarray float64 3%positive [3; 2]%nat [1; 3] 0 row_major.

Definition shared_buffer_state : state :=
  mk_state (<[1%positive := ONdarray rows_x]>
             (<[2%positive := ONdarray transposed_x]>
               (<[3%positive := OBuffer readme_buffer]> ∅))) 0.

(** Every second element of a float32 buffer of five elements. *)
Definition float32_x : ndarray :=
  mk_ndarray float32 2%positive [3]%nat [2] 0 row_major.

Definition float32_state : state :=
  mk_state (<[1%positive := ONdarray float32_x]>
             (<[2%positive := OBuffer (map (SFloat Single)
                                         [1; 2; 3; 4; 5]%float)]> ∅)) 0.

(** An int8 vector of two elements. *)
Definition int8_x : ndarray :=
  mk_ndarray int8 2%positive [2]%nat [1] 0 row_major.

Definition int8_state : state :=
  mk_state (<[1%positive := ONdarray int8_x]>
             (<[2%positive := OBuffer [SInt true W8 1; SInt true W8 2]]> ∅)) 0.

(** The example of the documentation, declared column-major. *)
Definition readme_x_column_major : ndarray :=
  mk_ndarray float64 2%positive [3; 1; 2]%nat [2; 2; 1] 0 column_major.

Definition readme_state_column_major : state :=
  mk_state (<[1%positive := ONdarray readme_x_column_major]>
             (<[2%positive := OBuffer readme_buffer]> ∅)) 0.

(** Some multi-index of [idxs] addresses position [i] of the buffer of [d]. *)
Definition visits (d : ndarray) (idxs : list (list nat)) (i : nat) : Prop :=
  Exists (fun idx => position d idx = Z.of_nat i) idxs.

#[global] Instance visits_dec d idxs i : Decision (visits d idxs i).
Proof. unfold visits. apply _. Defined.

(** The buffer after the traversal has stored [e] at the position of each
    multi-index of [idxs], in that order. *)
Definition filled (d : ndarray) (e : Scalar) (idxs : list (list nat))
    (els : list Scalar) : list Scalar :=
  foldl (fun acc idx => write acc (position d idx) e) els idxs.

(** * Properties *)

(** ** Multi-indices *)

Lemma flat_map_length_const {A B} (f : A -> list B) (n : nat) (l : list A) :
  (forall a, length (f a) = n) -> length (flat_map f l) = (length l * n)%nat.
Proof.
  intros Hf. induction l as [|a l IH]; simpl; [reflexivity|].
  rewrite length_app, Hf, IH. reflexivity.
Qed.

Lemma length_indices sh : length (indices sh) = numel sh.
Proof.
  induction sh as [|n sh IH]; simpl; [reflexivity|].
  rewrite (flat_map_length_const _ (numel sh)).
  - rewrite length_seq. reflexivity.
  - intros i. rewrite length_map. exact IH.
Qed.

Lemma numel_snoc sh n : numel (sh ++ [n]) = (numel sh * n)%nat.
Proof.
  induction sh as [|m sh IH]; simpl; [lia|]. rewrite IH. lia.
Qed.

Lemma numel_reverse sh : numel (reverse sh) = numel sh.
Proof.
  induction sh as [|n sh IH]; [reflexivity|].
  rewrite reverse_cons, numel_snoc, IH. simpl. lia.
Qed.

Lemma length_traversal o sh : length (traversal o sh) = numel sh.
Proof.
  destruct o; simpl.
  - apply length_indices.
  - rewrite length_map, length_indices. apply numel_reverse.
Qed.

Lemma in_indices sh : forall idx, In idx (indices sh) <-> valid_index sh idx.
Proof.
  unfold valid_index.
  induction sh as [|n sh IH]; intros idx; simpl.
  - split.
    + intros [<-|[]]. constructor.
    + intros H. inversion H. now left.
  - rewrite in_flat_map. split.
    + intros (i & Hi & Hin). apply in_seq in Hi.
      apply in_map_iff in Hin as (j & <- & Hj).
      constructor; [lia|]. now apply IH.
    + intros H. inversion H as [|i m j sh' Hlt Hrest]; subst.
      exists i. split; [apply in_seq; lia|].
      apply in_map_iff. exists j. split; [reflexivity|]. now apply IH.
Qed.

Lemma valid_index_reverse sh idx :
  valid_index (reverse sh) (reverse idx) <-> valid_index sh idx.
Proof.
  unfold valid_index. split; intros H.
  - apply Forall2_reverse in H. now rewrite !reverse_involutive in H.
  - now apply Forall2_reverse.
Qed.

(** The traversal visits exactly the valid multi-indices, whatever the
    order. *)
Lemma in_traversal o sh idx : In idx (traversal o sh) <-> valid_index sh idx.
Proof.
  destruct o; simpl.
  - apply in_indices.
  - rewrite in_map_iff. split.
    + intros (j & <- & Hj). apply in_indices in Hj.
      apply valid_index_reverse. now rewrite reverse_involutive.
    + intros H. exists (reverse idx). split; [apply reverse_involutive|].
      apply in_indices. now apply valid_index_reverse.
Qed.




Lemma traversal_numel_0 o sh : numel sh = 0%nat -> traversal o sh = [].
Proof.
  intros H. apply length_zero_iff_nil. now rewrite length_traversal.
Qed.

Lemma numel_zero_dim sh : In 0%nat sh -> numel sh = 0%nat.
Proof.
  induction sh as [|n sh IH]; simpl; [tauto|].
  intros [->|H]; [reflexivity|]. rewrite IH by assumption. lia.
Qed.

Lemma dot_zero_strides idx (sh : list nat) :
  dot idx (map (fun _ => 0) sh) = 0.
Proof.
  revert sh. induction idx as [|i idx IH]; intros [|n sh]; simpl; auto.
  rewrite IH. lia.
Qed.

(** ** The buffer written by the traversal *)

Lemma length_write els i e : length (write els i e) = length els.
Proof. unfold write. destruct (0 <=? i); [apply length_insert|reflexivity]. Qed.

Lemma length_filled d e idxs : forall els,
  length (filled d e idxs els) = length els.
Proof.
  unfold filled. induction idxs as [|idx idxs IH]; intros els; simpl.
  - reflexivity.
  - rewrite IH. apply length_write.
Qed.

Lemma write_keeps els p e (i : nat) :
  els !! i = Some e -> write els p e !! i = Some e.
Proof.
  intros H. unfold write. destruct (0 <=? p); [|exact H].
  destruct (decide (Z.to_nat p = i)) as [->|Hne].
  - apply list_lookup_insert_eq. now apply lookup_lt_is_Some; exists e.
  - now rewrite list_lookup_insert_ne.
Qed.

Lemma filled_keeps d e idxs (i : nat) : forall els,
  els !! i = Some e -> filled d e idxs els !! i = Some e.
Proof.
  unfold filled. induction idxs as [|idx idxs IH]; intros els H; simpl.
  - exact H.
  - apply IH. now apply write_keeps.
Qed.

(** Every position the traversal visits holds [e] in the end. *)
Lemma filled_visited d e idxs idx : forall els,
  In idx idxs ->
  0 <= position d idx < Z.of_nat (length els) ->
  filled d e idxs els !! Z.to_nat (position d idx) = Some e.
Proof.
  induction idxs as [|j idxs IH]; intros els Hin Hb; [destruct Hin|].
  destruct Hin as [->|Hin].
  - unfold filled; simpl. apply filled_keeps. unfold write.
    destruct (Z.leb_spec 0 (position d idx)); [|lia].
    apply list_lookup_insert_eq. lia.
  - unfold filled; simpl. apply IH; [assumption|].
    now rewrite length_write.
Qed.

(** A position the traversal does not visit keeps its element. *)
Lemma filled_not_visited d e idxs (i : nat) : forall els,
  (forall idx, In idx idxs -> position d idx <> Z.of_nat i) ->
  filled d e idxs els !! i = els !! i.
Proof.
  induction idxs as [|j idxs IH]; intros els Hn; [reflexivity|].
  unfold filled; simpl. fold (filled d e idxs (write els (position d j) e)).
  rewrite IH by (intros idx H; apply Hn; now right).
  unfold write. destruct (Z.leb_spec 0 (position d j)); [|reflexivity].
  apply list_lookup_insert_ne. intros Heq.
  apply (Hn j); [now left|]. lia.
Qed.

(** ** Casting *)

Lemma cast_natural_type dt v e : cast dt v = Some e -> natural_type e = dt.
Proof.
  unfold cast. destruct (decide (natural_type v = dt)) as [Heq|Hne].
  - intros [= <-]. exact Heq.
  - destruct dt, v; intros [= <-]; reflexivity.
Qed.

Lemma cast_same e : cast (natural_type e) e = Some e.
Proof. unfold cast. now rewrite decide_True. Qed.

(** A compatible scalar always has a representation in the element type. *)
Lemma compatible_cast v dt :
  isScalarMostlySafeCompatible v dt = true -> is_Some (cast dt v).
Proof.
  unfold isScalarMostlySafeCompatible, cast.
  destruct (decide (natural_type v = dt)); [eauto|].
  destruct v, dt; simpl; eauto; discriminate.
Qed.


(** ** Running the traversal *)

(** One step with a broadcast scalar as the source. *)
Lemma assign_element_step src dst e idx h n els :
  h !! data src = Some (OBuffer [e]) ->
  h !! data dst = Some (OBuffer els) ->
  position src idx = 0 ->
  cast (dtype dst) e = Some e ->
  assign_element src dst idx (mk_state h n) =
    (Return tt,
     mk_state (<[data dst := OBuffer (write els (position dst idx) e)]> h) (S n)).
Proof.
  intros Hs Hd Hp Hc. unfold assign_element, bind, load. cbn [heap stores].
  rewrite Hs, Hp.
  change (if 0 <=? 0 then [e] !! Z.to_nat 0 else None) with (Some e).
  cbv beta iota. rewrite Hc. unfold store. cbn [heap stores].
  now rewrite Hd.
Qed.

(** The loop invariant of [assign] when the source is a broadcast scalar:
    the source buffer keeps its single element, and the destination buffer
    is [filled] along the indices already visited. *)
Lemma for_each_assign_element src dst e idxs : forall h n els,
  h !! data src = Some (OBuffer [e]) ->
  h !! data dst = Some (OBuffer els) ->
  data src <> data dst ->
  (forall idx, position src idx = 0) ->
  cast (dtype dst) e = Some e ->
  for_each idxs (assign_element src dst) (mk_state h n) =
    (Return tt,
     mk_state (<[data dst := OBuffer (filled dst e idxs els)]> h)
              (n + length idxs)).
Proof.
  induction idxs as [|idx idxs IH]; intros h n els Hs Hd Hne Hp Hc.
  - cbn. rewrite insert_id by exact Hd. do 2 f_equal. lia.
  - cbn [for_each]. unfold bind at 1.
    rewrite (assign_element_step src dst e idx h n els) by auto.
    rewrite (IH _ _ (write els (position dst idx) e)); try assumption.
    + rewrite insert_insert_eq. unfold filled. cbn [foldl length].
      do 2 f_equal. lia.
    + now rewrite lookup_insert_ne.
    + apply lookup_insert_eq.
Qed.



(** ** Running [fill] *)

Lemma bind_return {A B} (m : M A) (k : A -> M B) s a s' :
  m s = (Return a, s') -> bind m k s = k a s'.
Proof. intros H. unfold bind. now rewrite H. Qed.

Lemma bind_throw {A B} (m : M A) (k : A -> M B) s e s' :
  m s = (Throw e, s') -> bind m k s = (Throw e, s').
Proof. intros H. unfold bind. now rewrite H. Qed.

Lemma get_ndarray_run x a s :
  heap s !! x = Some (ONdarray a) -> get_ndarray x s = (Return a, s).
Proof. intros H. unfold get_ndarray. now rewrite H. Qed.

Lemma getDtype_run x a s :
  heap s !! x = Some (ONdarray a) -> getDtype x s = (Return (dtype a), s).
Proof.
  intros H. unfold getDtype. now rewrite (bind_return _ _ _ _ _ (get_ndarray_run x a s H)).
Qed.

Lemma getShape_run x a s :
  heap s !! x = Some (ONdarray a) -> getShape x s = (Return (shape a), s).
Proof.
  intros H. unfold getShape. now rewrite (bind_return _ _ _ _ _ (get_ndarray_run x a s H)).
Qed.

Lemma getOrder_run x a s :
  heap s !! x = Some (ONdarray a) -> getOrder x s = (Return (order a), s).
Proof.
  intros H. unfold getOrder. now rewrite (bind_return _ _ _ _ _ (get_ndarray_run x a s H)).
Qed.

(** An incompatible value: [fill] throws at its guard, in the state it was
    called in. *)
Lemma fill_incompatible ToString x value s a :
  heap s !! x = Some (ONdarray a) ->
  isScalarMostlySafeCompatible value (dtype a) = false ->
  fill ToString x value s =
    (Throw (TypeError (format template [dtype_name (dtype a); ToString value])), s).
Proof.
  intros Hx Hc. unfold fill.
  rewrite (bind_return _ _ _ _ _ (getDtype_run x a s Hx)).
  now rewrite Hc.
Qed.

(** A compatible value and a descriptor over a buffer: [fill] allocates the
    broadcast view (a buffer [b] and a descriptor [v], both new), runs the
    traversal over the buffer of [x], and returns [undefined]. *)
Lemma fill_compatible ToString x value s a els :
  heap s !! x = Some (ONdarray a) ->
  heap s !! data a = Some (OBuffer els) ->
  isScalarMostlySafeCompatible value (dtype a) = true ->
  exists e b v,
    cast (dtype a) value = Some e /\
    heap s !! b = None /\ heap s !! v = None /\ b <> v /\
    fill ToString x value s =
      (Return undefined,
       mk_state
         (<[data a := OBuffer (filled a e (traversal (order a) (shape a)) els)]>
            (<[v := ONdarray (mk_ndarray (dtype a) b (shape a)
                                (map (fun _ => 0) (shape a)) 0 (order a))]>
               (<[b := OBuffer [e]]> (heap s))))
         (stores s + numel (shape a))).
Proof.
  intros Hx Hd Hc.
  destruct (compatible_cast _ _ Hc) as [e He].
  set (b := fresh (dom (heap s))).
  set (h1 := <[b := OBuffer [e]]> (heap s)).
  set (v := fresh (dom h1)).
  set (view := mk_ndarray (dtype a) b (shape a) (map (fun _ => 0) (shape a)) 0 (order a)).
  set (h2 := <[v := ONdarray view]> h1).
  assert (Hb : heap s !! b = None) by (apply not_elem_of_dom, is_fresh).
  assert (Hv1 : h1 !! v = None) by (apply not_elem_of_dom, is_fresh).
  assert (Hbv : b <> v).
  { intros Heq. rewrite <- Heq in Hv1. unfold h1 in Hv1.
    now rewrite lookup_insert_eq in Hv1. }
  assert (Hv : heap s !! v = None).
  { unfold h1 in Hv1. now rewrite lookup_insert_ne in Hv1. }
  assert (Hxb : b <> x) by congruence.
  assert (Hxv : v <> x) by congruence.
  assert (Hdb : b <> data a) by congruence.
  assert (Hdv : v <> data a) by congruence.
  exists e, b, v. repeat split; try assumption.
  unfold fill.
  rewrite (bind_return _ _ _ _ _ (getDtype_run x a s Hx)).
  rewrite Hc. cbn [negb].
  rewrite (bind_return _ _ _ _ _ (getShape_run x a s Hx)).
  rewrite (bind_return _ _ _ _ _ (getOrder_run x a s Hx)).
  assert (Hbs : broadcastScalar value (dtype a) (shape a) (order a) s =
                (Return v, mk_state h2 (stores s))).
  { unfold broadcastScalar. rewrite He. reflexivity. }
  rewrite (bind_return _ _ _ _ _ Hbs).
  assert (Hx2 : h2 !! x = Some (ONdarray a)).
  { unfold h2, h1. now rewrite !lookup_insert_ne. }
  assert (Hd2 : h2 !! data a = Some (OBuffer els)).
  { unfold h2, h1. now rewrite !lookup_insert_ne. }
  assert (Hv2 : h2 !! v = Some (ONdarray view)) by apply lookup_insert_eq.
  assert (Hb2 : h2 !! b = Some (OBuffer [e])).
  { unfold h2, h1. rewrite lookup_insert_ne by congruence. apply lookup_insert_eq. }
  assert (Has : assign v x (mk_state h2 (stores s)) =
    (Return tt,
     mk_state (<[data a := OBuffer (filled a e (traversal (order a) (shape a)) els)]> h2)
       (stores s + numel (shape a)))).
  { unfold assign.
    rewrite (bind_return _ _ _ _ _ (get_ndarray_run v view (mk_state h2 _) Hv2)).
    rewrite (bind_return _ _ _ _ _ (get_ndarray_run x a (mk_state h2 _) Hx2)).
    rewrite decide_True by reflexivity.
    destruct (Nat.eqb_spec (numel (shape a)) 0) as [H0|H0].
    - rewrite (traversal_numel_0 _ _ H0), H0. unfold filled, ret. cbn [foldl].
      rewrite insert_id by exact Hd2. do 2 f_equal. lia.
    - rewrite (for_each_assign_element view a e _ h2 (stores s) els); auto.
      + now rewrite length_traversal.
      + intros idx. unfold position, view. cbn [offset strides].
        now rewrite dot_zero_strides.
      + rewrite <- (cast_natural_type _ _ _ He). apply cast_same. }
  now rewrite (bind_return _ _ _ _ _ Has).
Qed.

(** ** The model on small inputs *)

Example fround_exact : fround 1.5 = 1.5%float.
Proof. vm_compute. reflexivity. Qed.

Example fround_rounds : fround 16777217 = 16777216%float.
Proof. vm_compute. reflexivity. Qed.

Example traversal_row_major :
  traversal row_major [2; 2]%nat = [[0; 0]; [0; 1]; [1; 0]; [1; 1]]%nat.
Proof. reflexivity. Qed.

Example traversal_column_major :
  traversal column_major [2; 2]%nat = [[0; 0]; [1; 0]; [0; 1]; [1; 1]]%nat.
Proof. reflexivity. Qed.

Example traversal_rank_0 : traversal row_major [] = [[]].
Proof. reflexivity. Qed.

Example compatible_double_into_single :
  isScalarMostlySafeCompatible (SFloat Double 0.5) float32 = true.
Proof. reflexivity. Qed.

Example incompatible_complex_into_real :
  isScalarMostlySafeCompatible (SComplex Single 1 0) float64 = false.
Proof. reflexivity. Qed.

Example fill_column_major_view :
  heap (snd (fill (fun _ => "10"%string) 2%positive (SFloat Double 10)
               two_views_state)) !! 4%positive =
  Some (OBuffer (map (SFloat Double)
                   [10; 10; 10; 10; 10; 10; 1; 2; 3; 4; 5; 6]%float)).
Proof. vm_compute. reflexivity. Qed.

(** ** The invariant *)

Lemma in_bounds_spec a n :
  in_bounds a n = true ->
  forall idx, valid_index (shape a) idx -> 0 <= position a idx < Z.of_nat n.
Proof.
  unfold in_bounds. rewrite forallb_forall. intros H idx Hv.
  apply in_indices in Hv. apply H in Hv.
  apply andb_prop in Hv as [H1 H2]. lia.
Qed.

Lemma well_formed_intro h x a els :
  h !! x = Some (ONdarray a) ->
  h !! data a = Some (OBuffer els) ->
  in_bounds a (length els) = true ->
  well_formed h x a.
Proof.
  intros Hx Hd Hb. split; [exact Hx|]. exists els. split; [exact Hd|].
  now apply in_bounds_spec.
Qed.

(** What a successful [fill] leaves behind: the value [e] at every valid
    multi-index, every other object of the store as it was, and as many
    element stores as the shape has elements. *)
Lemma fill_spec ToString x value s a :
  well_formed (heap s) x a ->
  isScalarMostlySafeCompatible value (dtype a) = true ->
  exists e s',
    cast (dtype a) value = Some e /\
    fill ToString x value s = (Return undefined, s') /\
    stores s' = (stores s + numel (shape a))%nat /\
    (forall l, is_Some (heap s !! l) -> l <> data a -> heap s' !! l = heap s !! l) /\
    (exists els', heap s' !! data a = Some (OBuffer els') /\
       forall idx, valid_index (shape a) idx ->
         els' !! Z.to_nat (position a idx) = Some e) /\
    (forall idx, valid_index (shape a) idx -> read (heap s') x idx = Some e).
Proof.
  intros [Hx (els & Hd & Hb)] Hc.
  destruct (fill_compatible ToString x value s a els Hx Hd Hc)
    as (e & b & v & He & Hbn & Hvn & Hbv & Hrun).
  eexists e, _. split; [exact He|]. split; [exact Hrun|]. cbn [heap stores].
  assert (Hframe : forall l, is_Some (heap s !! l) -> l <> data a ->
    <[data a := OBuffer (filled a e (traversal (order a) (shape a)) els)]>
      (<[v := ONdarray (mk_ndarray (dtype a) b (shape a)
                          (map (fun _ => 0) (shape a)) 0 (order a))]>
         (<[b := OBuffer [e]]> (heap s))) !! l = heap s !! l).
  { intros l [o Hl] Hne. rewrite !lookup_insert_ne; congruence. }
  assert (Hels : forall idx, valid_index (shape a) idx ->
    filled a e (traversal (order a) (shape a)) els !! Z.to_nat (position a idx) = Some e).
  { intros idx Hv. apply filled_visited; [now apply in_traversal|auto]. }
  split; [reflexivity|]. split; [exact Hframe|]. split.
  - eexists. split; [apply lookup_insert_eq|exact Hels].
  - intros idx Hv. unfold read.
    rewrite Hframe by (eauto; congruence).
    rewrite Hx, lookup_insert_eq.
    destruct (Z.leb_spec 0 (position a idx)) as [_|Hneg]; [now apply Hels|].
    specialize (Hb idx Hv). lia.
Qed.

(** ** The error message *)

Lemma format_template d v :
  format template [d; v] =
  ("invalid argument. The second argument cannot be safely cast to the input array data type. Data type: "
     ++ d ++ ". Value: `" ++ v ++ "`.")%string.
Proof. reflexivity. Qed.

Lemma occurs_in_middle pre sub post : occurs_in sub (pre ++ sub ++ post)%string.
Proof. now exists pre, post. Qed.

Lemma string_app_assoc (a b c : string) :
  (a ++ b ++ c)%string = ((a ++ b) ++ c)%string.
Proof.
  induction a as [|ch a IH]; [reflexivity|].
  change (String ch (a ++ b ++ c) = String ch ((a ++ b) ++ c))%string.
  now rewrite IH.
Qed.

Lemma occurs_in_later pre m1 m2 sub post :
  occurs_in sub (pre ++ m1 ++ m2 ++ sub ++ post)%string.
Proof.
  exists (pre ++ m1 ++ m2)%string, post.
  now rewrite <- !string_app_assoc.
Qed.

(** ** Frame and cost *)

Lemma read_ext h h' x idx :
  h' !! x = h !! x ->
  (forall a, h !! x = Some (ONdarray a) -> h' !! data a = h !! data a) ->
  read h' x idx = read h x idx.
Proof.
  intros Hx Hd. unfold read. rewrite Hx.
  destruct (h !! x) as [[a|?]|] eqn:E; try reflexivity.
  now rewrite (Hd a eq_refl).
Qed.



(** * The claims *)

(** C1.  For a descriptor that satisfies the invariant and a value that is
    compatible with its element type, [fill] returns normally, and reading
    [x] afterwards at any valid multi-index (offset + sum of index * stride)
    gives the value cast to the element type.  In particular, on the float64
    buffer [1,2,3,4,5,6] with shape [3,1,2], strides [2,2,1], offset 0,
    row-major, [fill( x, 10.0 )] leaves the buffer equal to
    [10,10,10,10,10,10]. *)
Theorem fill_reads_back_value ToString s x a value :
  well_formed (heap s) x a ->
  isScalarMostlySafeCompatible value (dtype a) = true ->
  (exists e s',
     cast (dtype a) value = Some e /\
     fill ToString x value s = (Return undefined, s') /\
     forall idx, valid_index (shape a) idx -> read (heap s') x idx = Some e) /\
  heap (snd (fill ToString 1%positive (SFloat Double 10) readme_state))
    !! data readme_x =
  Some (OBuffer (map (SFloat Double)
                   [10%float; 10%float; 10%float; 10%float; 10%float; 10%float])).
Proof.
  intros Hwf Hc. split.
  - destruct (fill_spec ToString x value s a Hwf Hc)
      as (e & s' & He & Hrun & _ & _ & _ & Hread).
    exists e, s'. auto.
  - vm_compute. reflexivity.
Qed.

Lemma fill_reads_back_value_witness :
  (exists e s',
     cast float64 (SFloat Double 10) = Some e /\
     fill (fun _ => "10"%string) 1%positive (SFloat Double 10) readme_state =
       (Return undefined, s') /\
     forall idx, valid_index [3; 1; 2]%nat idx ->
       read (heap s') 1%positive idx = Some e) /\
  heap (snd (fill (fun _ => "10"%string) 1%positive (SFloat Double 10) readme_state))
    !! 2%positive =
  Some (OBuffer (map (SFloat Double)
                   [10%float; 10%float; 10%float; 10%float; 10%float; 10%float])).
Proof.
  apply (fill_reads_back_value (fun _ => "10"%string) readme_state 1%positive
           readme_x (SFloat Double 10)).
  - apply (well_formed_intro _ _ _ readme_buffer); reflexivity.
  - reflexivity.
Defined.

(** C2.  For a descriptor [x] and a value that is not compatible with its
    element type, [fill] throws an error whose message names the element
    type and the rejected value; it throws in the state it was called in:
    no element store has been executed and every buffer, the one of [x]
    included, is as it was. *)
Theorem fill_rejects_before_writing ToString s x a value :
  heap s !! x = Some (ONdarray a) ->
  isScalarMostlySafeCompatible value (dtype a) = false ->
  exists msg s',
    fill ToString x value s = (Throw (TypeError msg), s') /\
    occurs_in (dtype_name (dtype a)) msg /\
    occurs_in (ToString value) msg /\
    stores s' = stores s /\
    heap s' = heap s.
Proof.
  intros Hx Hc. eexists _, s.
  split; [exact (fill_incompatible ToString x value s a Hx Hc)|].
  rewrite format_template.
  split; [apply occurs_in_middle|].
  split; [apply occurs_in_later|].
  split; reflexivity.
Qed.

Lemma fill_rejects_before_writing_witness :
  exists msg s',
    fill (fun _ => "1 + 2i"%string) 1%positive (SComplex Double 1 2) readme_state =
      (Throw (TypeError msg), s') /\
    occurs_in "float64" msg /\
    occurs_in "1 + 2i" msg /\
    stores s' = stores readme_state /\
    heap s' = heap readme_state.
Proof.
  apply (fill_rejects_before_writing (fun _ => "1 + 2i"%string) readme_state
           1%positive readme_x (SComplex Double 1 2)); reflexivity.
Defined.

(** C3, as stated, fails: a complex64 array filled with the double
    2^24 + 1 (a real scalar, compatible with complex64) reads back with the
    real component 2^24, the nearest single-precision number, and not with
    the scalar itself. *)
Lemma fill_complex64_rounds_real_component :
  well_formed (heap complex64_state) 1%positive complex64_x /\
  is_real odd_double = true /\
  isScalarMostlySafeCompatible odd_double (dtype complex64_x) = true /\
  valid_index (shape complex64_x) [0%nat] /\
  read (heap (snd (fill (fun _ => "16777217"%string) 1%positive odd_double
                     complex64_state))) 1%positive [0%nat]
    = Some (SComplex Single 16777216 0) /\
  read (heap (snd (fill (fun _ => "16777217"%string) 1%positive odd_double
                     complex64_state))) 1%positive [0%nat]
    <> Some (SComplex Single (real_value odd_double) 0).
Proof.
  split; [apply (well_formed_intro _ _ _ [SComplex Single 1 2; SComplex Single 3 4]);
          reflexivity|].
  split; [reflexivity|]. split; [reflexivity|].
  split; [repeat constructor|].
  assert (Hread : read (heap (snd (fill (fun _ => "16777217"%string) 1%positive
                    odd_double complex64_state))) 1%positive [0%nat]
                  = Some (SComplex Single 16777216 0))
    by (vm_compute; reflexivity).
  split; [exact Hread|]. rewrite Hread. intros H.
  apply (f_equal (fun o => match o with
                           | Some (SComplex _ re _) => PrimFloat.eqb re 16777216
                           | _ => false
                           end)) in H.
  vm_compute in H. discriminate H.
Qed.

(** C3, amended.  For a descriptor of complex element type that satisfies
    the invariant and a real scalar [r] compatible with that type, after
    [fill] every logical element is the complex number whose real component
    is [r] in the precision of the element type's components ([r] itself
    for complex128, [r] rounded to single precision for complex64) and
    whose imaginary component is zero. *)
Theorem fill_complex_from_real ToString s x a p value :
  well_formed (heap s) x a ->
  dtype a = TComplex p ->
  is_real value = true ->
  isScalarMostlySafeCompatible value (dtype a) = true ->
  exists s',
    fill ToString x value s = (Return undefined, s') /\
    forall idx, valid_index (shape a) idx ->
      read (heap s') x idx =
      Some (SComplex p (to_precision p (real_value value)) 0).
Proof.
  intros Hwf Hdt Hreal Hc.
  destruct (fill_spec ToString x value s a Hwf Hc)
    as (e & s' & He & Hrun & _ & _ & _ & Hread).
  exists s'. split; [exact Hrun|]. intros idx Hv. rewrite (Hread idx Hv).
  rewrite Hdt in He. destruct value; try discriminate Hreal;
    unfold cast in He; rewrite decide_False in He by discriminate;
    now injection He as <-.
Qed.

Lemma fill_complex_from_real_witness :
  exists s',
    fill (fun _ => "16777217"%string) 1%positive odd_double complex64_state =
      (Return undefined, s') /\
    forall idx, valid_index [2%nat] idx ->
      read (heap s') 1%positive idx =
      Some (SComplex Single (to_precision Single 16777217) 0).
Proof.
  apply (fill_complex_from_real (fun _ => "16777217"%string) complex64_state
           1%positive complex64_x Single odd_double).
  - apply (well_formed_intro _ _ _ [SComplex Single 1 2; SComplex Single 3 4]);
      reflexivity.
  - reflexivity.
  - reflexivity.
  - reflexivity.
Defined.

(** C4, as stated, fails: on the example of the documentation [fill]
    returns [undefined], not the reference to [x] it was given. *)
Lemma fill_returns_undefined_not_x :
  fst (fill (fun _ => "10"%string) 1%positive (SFloat Double 10) readme_state)
    = Return undefined /\
  fst (fill (fun _ => "10"%string) 1%positive (SFloat Double 10) readme_state)
    <> Return (ref 1%positive).
Proof.
  assert (H : fst (fill (fun _ => "10"%string) 1%positive (SFloat Double 10)
                     readme_state) = Return undefined)
    by (vm_compute; reflexivity).
  split; [exact H|]. rewrite H. discriminate.
Qed.

(** C4, amended.  For a descriptor that satisfies the invariant and a
    compatible value, [fill] mutates [x] in place (the reference [x] still
    designates the same descriptor, whose data reference now designates
    the filled buffer) and returns [undefined]. *)
Theorem fill_in_place_returns_undefined ToString s x a value :
  well_formed (heap s) x a ->
  isScalarMostlySafeCompatible value (dtype a) = true ->
  exists e s' els',
    cast (dtype a) value = Some e /\
    fill ToString x value s = (Return undefined, s') /\
    heap s' !! x = Some (ONdarray a) /\
    heap s' !! data a = Some (OBuffer els') /\
    forall idx, valid_index (shape a) idx ->
      els' !! Z.to_nat (position a idx) = Some e.
Proof.
  intros Hwf Hc.
  destruct (fill_spec ToString x value s a Hwf Hc)
    as (e & s' & He & Hrun & _ & Hframe & (els' & Hd' & Hels) & _).
  destruct Hwf as [Hx (els & Hd & _)].
  exists e, s', els'. repeat split; try assumption.
  rewrite Hframe; [exact Hx|eauto|congruence].
Qed.

Lemma fill_in_place_returns_undefined_witness :
  exists e s' els',
    cast float64 (SFloat Double 10) = Some e /\
    fill (fun _ => "10"%string) 1%positive (SFloat Double 10) readme_state =
      (Return undefined, s') /\
    heap s' !! 1%positive = Some (ONdarray readme_x) /\
    heap s' !! 2%positive = Some (OBuffer els') /\
    forall idx, valid_index [3; 1; 2]%nat idx ->
      els' !! Z.to_nat (position readme_x idx) = Some e.
Proof.
  apply (fill_in_place_returns_undefined (fun _ => "10"%string) readme_state
           1%positive readme_x (SFloat Double 10)).
  - apply (well_formed_intro _ _ _ readme_buffer); reflexivity.
  - reflexivity.
Defined.

(** C5, as stated, fails: on a float64 array of shape [2,0] (no element), a
    complex value, which is not compatible with float64, makes [fill]
    throw: the guard runs before the shape is looked at. *)
Lemma fill_zero_size_still_checks_value :
  In 0%nat (shape empty_x) /\
  isScalarMostlySafeCompatible (SComplex Double 1 2) (dtype empty_x) = false /\
  fst (fill (fun _ => "1 + 2i"%string) 1%positive (SComplex Double 1 2) empty_state)
    = Throw (TypeError "invalid argument. The second argument cannot be safely cast to the input array data type. Data type: float64. Value: `1 + 2i`.") /\
  fst (fill (fun _ => "1 + 2i"%string) 1%positive (SComplex Double 1 2) empty_state)
    <> Return undefined.
Proof.
  split; [right; left; reflexivity|]. split; [reflexivity|].
  assert (H : fst (fill (fun _ => "1 + 2i"%string) 1%positive (SComplex Double 1 2)
                     empty_state)
              = Throw (TypeError "invalid argument. The second argument cannot be safely cast to the input array data type. Data type: float64. Value: `1 + 2i`."))
    by (vm_compute; reflexivity).
  split; [exact H|]. rewrite H. discriminate.
Qed.

(** C5, amended.  For a descriptor over a buffer with at least one dimension
    of size 0: when the value is compatible with the element type, [fill]
    returns normally, executes no element store and leaves the buffer of
    [x] unchanged; when it is not, [fill] throws the TypeError of its
    guard, and the buffer is unchanged as well. *)
Theorem fill_zero_size ToString s x a els value :
  heap s !! x = Some (ONdarray a) ->
  heap s !! data a = Some (OBuffer els) ->
  In 0%nat (shape a) ->
  exists s',
    fill ToString x value s =
      (if isScalarMostlySafeCompatible value (dtype a)
       then Return undefined
       else Throw (TypeError (format template [dtype_name (dtype a); ToString value])),
       s') /\
    heap s' !! data a = Some (OBuffer els) /\
    stores s' = stores s.
Proof.
  intros Hx Hd H0. apply numel_zero_dim in H0.
  destruct (isScalarMostlySafeCompatible value (dtype a)) eqn:Hc.
  - destruct (fill_compatible ToString x value s a els Hx Hd Hc)
      as (e & b & v & _ & _ & _ & _ & Hrun).
    rewrite (traversal_numel_0 _ _ H0), H0 in Hrun.
    eexists. split; [exact Hrun|]. cbn [heap stores]. split.
    + apply lookup_insert_eq.
    + lia.
  - exists s. split; [|auto]. now apply fill_incompatible.
Qed.

Lemma fill_zero_size_witness :
  exists s',
    fill (fun _ => "1 + 2i"%string) 1%positive (SComplex Double 1 2) empty_state =
      (if isScalarMostlySafeCompatible (SComplex Double 1 2) float64
       then Return undefined
       else Throw (TypeError (format template ["float64"; "1 + 2i"]%string)),
       s') /\
    heap s' !! 2%positive = Some (OBuffer [SFloat Double 7]) /\
    stores s' = stores empty_state.
Proof.
  apply (fill_zero_size (fun _ => "1 + 2i"%string) empty_state 1%positive empty_x
           [SFloat Double 7] (SComplex Double 1 2)).
  - reflexivity.
  - reflexivity.
  - right; left; reflexivity.
Defined.

(** C6.  For a descriptor over a buffer and a compatible value, [fill]
    leaves the descriptor of [x] (dtype, shape, strides, offset, order and
    data reference) as it was, and every object of the store other than the
    buffer of [x] as it was: only the contents of that buffer change. *)
Theorem fill_preserves_metadata ToString s x a els value :
  heap s !! x = Some (ONdarray a) ->
  heap s !! data a = Some (OBuffer els) ->
  isScalarMostlySafeCompatible value (dtype a) = true ->
  exists s',
    fill ToString x value s = (Return undefined, s') /\
    heap s' !! x = Some (ONdarray a) /\
    forall l, is_Some (heap s !! l) -> l <> data a -> heap s' !! l = heap s !! l.
Proof.
  intros Hx Hd Hc.
  destruct (fill_compatible ToString x value s a els Hx Hd Hc)
    as (e & b & v & _ & Hb & Hv & _ & Hrun).
  eexists. split; [exact Hrun|]. cbn [heap].
  assert (Hframe : forall l, is_Some (heap s !! l) -> l <> data a ->
    <[data a := OBuffer (filled a e (traversal (order a) (shape a)) els)]>
      (<[v := ONdarray (mk_ndarray (dtype a) b (shape a)
                          (map (fun _ => 0) (shape a)) 0 (order a))]>
         (<[b := OBuffer [e]]> (heap s))) !! l = heap s !! l).
  { intros l [o Hl] Hne. rewrite !lookup_insert_ne; congruence. }
  split; [|exact Hframe].
  rewrite Hframe; [exact Hx|eauto|congruence].
Qed.

Lemma fill_preserves_metadata_witness :
  exists s',
    fill (fun _ => "10"%string) 1%positive (SFloat Double 10) readme_state =
      (Return undefined, s') /\
    heap s' !! 1%positive = Some (ONdarray readme_x) /\
    forall l, is_Some (heap readme_state !! l) -> l <> 2%positive ->
      heap s' !! l = heap readme_state !! l.
Proof.
  apply (fill_preserves_metadata (fun _ => "10"%string) readme_state 1%positive
           readme_x readme_buffer (SFloat Double 10)); reflexivity.
Defined.




(** C8.  For two descriptors over different buffers, of the same element
    type and the same shape, whatever their strides, offsets and orders,
    and a value compatible with that element type: after [fill( x1, value )]
    and then [fill( x2, value )], reading [x1] and reading [x2] at any valid
    multi-index, each through its own strides and offset, give the same
    element. *)
Theorem fill_layout_independent ToString s x1 x2 a1 a2 value :
  well_formed (heap s) x1 a1 ->
  well_formed (heap s) x2 a2 ->
  data a1 <> data a2 ->
  shape a1 = shape a2 ->
  dtype a1 = dtype a2 ->
  isScalarMostlySafeCompatible value (dtype a1) = true ->
  exists s1 s2,
    fill ToString x1 value s = (Return undefined, s1) /\
    fill ToString x2 value s1 = (Return undefined, s2) /\
    forall idx, valid_index (shape a1) idx ->
      is_Some (read (heap s2) x1 idx) /\
      read (heap s2) x1 idx = read (heap s2) x2 idx.
Proof.
  intros Hwf1 Hwf2 Hne Hsh Hdt Hc.
  destruct (fill_spec ToString x1 value s a1 Hwf1 Hc)
    as (e1 & s1 & He1 & Hrun1 & _ & Hframe1 & (els1 & Hd1 & _) & Hread1).
  destruct Hwf1 as [Hx1 (els01 & Hb1 & _)].
  destruct Hwf2 as [Hx2 (els02 & Hb2 & Hin2)].
  assert (Hx1' : heap s1 !! x1 = Some (ONdarray a1)).
  { rewrite Hframe1; [exact Hx1|eauto|congruence]. }
  assert (Hwf2' : well_formed (heap s1) x2 a2).
  { split.
    - rewrite Hframe1; [exact Hx2|eauto|congruence].
    - exists els02. split; [|exact Hin2].
      rewrite Hframe1; [exact Hb2|eauto|congruence]. }
  rewrite Hdt in Hc.
  destruct (fill_spec ToString x2 value s1 a2 Hwf2' Hc)
    as (e2 & s2 & He2 & Hrun2 & _ & Hframe2 & _ & Hread2).
  destruct Hwf2' as [Hx2' (els2 & Hb2' & _)].
  assert (e1 = e2) as <- by congruence.
  exists s1, s2. split; [exact Hrun1|]. split; [exact Hrun2|].
  intros idx Hv.
  assert (Hr1 : read (heap s2) x1 idx = Some e1).
  { rewrite <- (Hread1 idx Hv). apply read_ext.
    - apply Hframe2; [eauto|congruence].
    - intros a Ha. assert (a = a1) as -> by congruence.
      apply Hframe2; [eauto|congruence]. }
  rewrite Hr1. split; [eauto|].
  symmetry. apply Hread2. now rewrite <- Hsh.
Qed.

Lemma fill_layout_independent_witness :
  exists s1 s2,
    fill (fun _ => "10"%string) 1%positive (SFloat Double 10) two_views_state =
      (Return undefined, s1) /\
    fill (fun _ => "10"%string) 2%positive (SFloat Double 10) s1 =
      (Return undefined, s2) /\
    forall idx, valid_index [2; 3]%nat idx ->
      is_Some (read (heap s2) 1%positive idx) /\
      read (heap s2) 1%positive idx = read (heap s2) 2%positive idx.
Proof.
  apply (fill_layout_independent (fun _ => "10"%string) two_views_state
           1%positive 2%positive rows_x columns_x (SFloat Double 10)).
  - apply (well_formed_intro _ _ _ readme_buffer); reflexivity.
  - apply (well_formed_intro _ _ _ (readme_buffer ++ readme_buffer)); reflexivity.
  - discriminate.
  - reflexivity.
  - reflexivity.
  - reflexivity.
Defined.



(** C10.  For a descriptor over a buffer, [fill] completes in one of two
    ways only: it returns when the value is compatible, and otherwise it
    throws a TypeError whose message is the fixed template
    'invalid argument. The second argument cannot be safely cast to the
    input array data type. Data type: %s. Value: `%s`.' with the dtype
    string and the string of the value in place of the two [%s]. *)
Theorem fill_throws_only_the_TypeError ToString s x a els value :
  heap s !! x = Some (ONdarray a) ->
  heap s !! data a = Some (OBuffer els) ->
  fst (fill ToString x value s) =
    if isScalarMostlySafeCompatible value (dtype a)
    then Return undefined
    else Throw (TypeError
           ("invalid argument. The second argument cannot be safely cast to the input array data type. Data type: "
              ++ dtype_name (dtype a) ++ ". Value: `" ++ ToString value ++ "`.")%string).
Proof.
  intros Hx Hd.
  destruct (isScalarMostlySafeCompatible value (dtype a)) eqn:Hc.
  - destruct (fill_compatible ToString x value s a els Hx Hd Hc)
      as (e & b & v & _ & _ & _ & _ & Hrun).
    now rewrite Hrun.
  - rewrite (fill_incompatible ToString x value s a Hx Hc).
    cbn [fst]. now rewrite format_template.
Qed.

Lemma fill_throws_only_the_TypeError_witness :
  fst (fill (fun _ => "3"%string) 1%positive (SFloat Double 3) int32_state) =
    if isScalarMostlySafeCompatible (SFloat Double 3) int32
    then Return undefined
    else Throw (TypeError
           ("invalid argument. The second argument cannot be safely cast to the input array data type. Data type: "
              ++ "int32" ++ ". Value: `" ++ "3" ++ "`.")%string).
Proof.
  apply (fill_throws_only_the_TypeError (fun _ => "3"%string) int32_state
           1%positive int32_x [SInt true W32 1; SInt true W32 2] (SFloat Double 3));
    reflexivity.
Defined.

(** * Further properties of [fill] *)

(** ** The filled buffer, element by element *)

Lemma visits_traversal o d i :
  visits d (traversal o (shape d)) i <->
  exists idx, valid_index (shape d) idx /\ position d idx = Z.of_nat i.
Proof.
  unfold visits. rewrite Exists_exists. split.
  - intros (idx & Hin & Hp). exists idx. split; [|exact Hp].
    apply (in_traversal o). now apply list_elem_of_In.
  - intros (idx & Hv & Hp). exists idx. split; [|exact Hp].
    apply list_elem_of_In. now apply in_traversal.
Qed.

(** An element of the filled buffer is [e] where a multi-index addresses
    it, and the old element elsewhere. *)
Lemma filled_lookup d e idxs els (i : nat) :
  filled d e idxs els !! i =
    if decide (visits d idxs i /\ (i < length els)%nat) then Some e
    else els !! i.
Proof.
  destruct (decide (visits d idxs i /\ (i < length els)%nat)) as [[Hv Hlt]|Hn].
  - apply Exists_exists in Hv as (idx & Hin & Hp).
    apply list_elem_of_In in Hin.
    replace i with (Z.to_nat (position d idx)) by lia.
    apply filled_visited; [exact Hin|lia].
  - destruct (decide (visits d idxs i)) as [Hv|Hv].
    + assert (length els <= i)%nat by (destruct (le_lt_dec (length els) i); tauto).
      rewrite !lookup_ge_None_2; [reflexivity|lia|rewrite length_filled; lia].
    + apply filled_not_visited. intros idx Hin Hp. apply Hv.
      apply Exists_exists. exists idx. split; [|exact Hp].
      now apply list_elem_of_In.
Qed.

Lemma filled_idempotent d e idxs els :
  filled d e idxs (filled d e idxs els) = filled d e idxs els.
Proof.
  apply list_eq. intros i. rewrite (filled_lookup d e idxs (filled _ _ _ _)).
  rewrite length_filled.
  destruct (decide (visits d idxs i /\ (i < length els)%nat)) as [H|H];
    [|reflexivity].
  rewrite filled_lookup. now rewrite decide_True.
Qed.

(** Two traversals that address the same positions, through descriptors
    that address alike, leave the same buffer. *)
Lemma filled_same_visits d d' e idxs idxs' els :
  (forall i, visits d idxs i <-> visits d' idxs' i) ->
  filled d e idxs els = filled d' e idxs' els.
Proof.
  intros Hsame. apply list_eq. intros i. rewrite !filled_lookup.
  destruct (decide (visits d idxs i /\ (i < length els)%nat)) as [[H1 H2]|H].
  - rewrite decide_True; [reflexivity|]. split; [now apply Hsame|exact H2].
  - rewrite decide_False; [reflexivity|]. intros [H1 H2]. apply H.
    split; [now apply Hsame|exact H2].
Qed.

(** A successful [fill], with the buffer it leaves and the objects it
    keeps. *)
Lemma fill_run ToString x value s a els :
  heap s !! x = Some (ONdarray a) ->
  heap s !! data a = Some (OBuffer els) ->
  isScalarMostlySafeCompatible value (dtype a) = true ->
  exists e s',
    cast (dtype a) value = Some e /\
    fill ToString x value s = (Return undefined, s') /\
    heap s' !! x = Some (ONdarray a) /\
    heap s' !! data a =
      Some (OBuffer (filled a e (traversal (order a) (shape a)) els)) /\
    (forall l, is_Some (heap s !! l) -> l <> data a -> heap s' !! l = heap s !! l).
Proof.
  intros Hx Hd Hc.
  destruct (fill_compatible ToString x value s a els Hx Hd Hc)
    as (e & b & v & He & Hb & Hv & _ & Hrun).
  eexists e, _. split; [exact He|]. split; [exact Hrun|]. cbn [heap].
  assert (Hframe : forall l, is_Some (heap s !! l) -> l <> data a ->
    <[data a := OBuffer (filled a e (traversal (order a) (shape a)) els)]>
      (<[v := ONdarray (mk_ndarray (dtype a) b (shape a)
                          (map (fun _ => 0) (shape a)) 0 (order a))]>
         (<[b := OBuffer [e]]> (heap s))) !! l = heap s !! l).
  { intros l [o Hl] Hne. rewrite !lookup_insert_ne; congruence. }
  split; [|split; [apply lookup_insert_eq|exact Hframe]].
  rewrite Hframe; [exact Hx|eauto|congruence].
Qed.

(** The invariant of any descriptor of the store survives a [fill]. *)
Lemma fill_run_well_formed ToString x value s a els y d :
  heap s !! x = Some (ONdarray a) ->
  heap s !! data a = Some (OBuffer els) ->
  isScalarMostlySafeCompatible value (dtype a) = true ->
  well_formed (heap s) y d ->
  well_formed (heap (snd (fill ToString x value s))) y d.
Proof.
  intros Hx Hd Hc [Hy (elsy & Hdy & Hin)].
  destruct (fill_run ToString x value s a els Hx Hd Hc)
    as (e & s' & _ & Hrun & _ & Hd' & Hframe).
  rewrite Hrun. cbn [snd]. split.
  - rewrite Hframe; [exact Hy|eauto|congruence].
  - destruct (decide (data d = data a)) as [Heq|Hne].
    + rewrite Heq in *. assert (elsy = els) as -> by congruence.
      eexists. split; [exact Hd'|].
      intros idx Hv. rewrite length_filled. now apply Hin.
    + exists elsy. split; [|exact Hin].
      rewrite Hframe; [exact Hdy|eauto|exact Hne].
Qed.

(** ** What [fill] writes and what it leaves *)

(** X1.  A successful [fill] keeps the length of the buffer of [x], and
    keeps every element of it that no valid multi-index of [x] addresses:
    filling a strided view leaves the elements between and around it. *)
Theorem fill_keeps_unaddressed_elements ToString s x a els value :
  heap s !! x = Some (ONdarray a) ->
  heap s !! data a = Some (OBuffer els) ->
  isScalarMostlySafeCompatible value (dtype a) = true ->
  exists s' els',
    fill ToString x value s = (Return undefined, s') /\
    heap s' !! data a = Some (OBuffer els') /\
    length els' = length els /\
    forall i : nat,
      (forall idx, valid_index (shape a) idx -> position a idx <> Z.of_nat i) ->
      els' !! i = els !! i.
Proof.
  intros Hx Hd Hc.
  destruct (fill_run ToString x value s a els Hx Hd Hc)
    as (e & s' & _ & Hrun & _ & Hd' & _).
  eexists s', _. split; [exact Hrun|]. split; [exact Hd'|].
  split; [apply length_filled|].
  intros i Hfree. apply filled_not_visited. intros idx Hin.
  apply Hfree. now apply (in_traversal (order a)).
Qed.

Lemma fill_keeps_unaddressed_elements_witness :
  exists s' els',
    fill (fun _ => "10"%string) 1%positive (SFloat Double 10) float32_state =
      (Return undefined, s') /\
    heap s' !! 2%positive = Some (OBuffer els') /\
    length els' = 5%nat /\
    forall i : nat,
      (forall idx, valid_index [3%nat] idx -> position float32_x idx <> Z.of_nat i) ->
      els' !! i = map (SFloat Single) [1; 2; 3; 4; 5]%float !! i.
Proof.
  apply (fill_keeps_unaddressed_elements (fun _ => "10"%string) float32_state
           1%positive float32_x (map (SFloat Single) [1; 2; 3; 4; 5]%float)
           (SFloat Double 10)); reflexivity.
Defined.

(** X2.  A successful [fill] keeps the invariant of every descriptor of the
    store, of [x] and of any other view, over the same buffer or over
    another one: each still designates a buffer in which all its valid
    multi-indices lie. *)
Theorem fill_preserves_invariant ToString s x a els value y d :
  heap s !! x = Some (ONdarray a) ->
  heap s !! data a = Some (OBuffer els) ->
  isScalarMostlySafeCompatible value (dtype a) = true ->
  well_formed (heap s) y d ->
  exists s',
    fill ToString x value s = (Return undefined, s') /\
    well_formed (heap s') y d.
Proof.
  intros Hx Hd Hc Hwf.
  pose proof (fill_run_well_formed ToString x value s a els y d Hx Hd Hc Hwf) as H.
  destruct (fill_run ToString x value s a els Hx Hd Hc)
    as (e & s' & _ & Hrun & _).
  exists s'. split; [exact Hrun|]. now rewrite Hrun in H.
Qed.

Lemma fill_preserves_invariant_witness :
  exists s',
    fill (fun _ => "10"%string) 1%positive (SFloat Double 10) shared_buffer_state =
      (Return undefined, s') /\
    well_formed (heap s') 2%positive transposed_x.
Proof.
  apply (fill_preserves_invariant (fun _ => "10"%string) shared_buffer_state
           1%positive rows_x readme_buffer (SFloat Double 10) 2%positive
           transposed_x).
  - reflexivity.
  - reflexivity.
  - reflexivity.
  - apply (well_formed_intro _ _ _ readme_buffer); reflexivity.
Defined.

(** X3.  [fill] is idempotent: a second [fill] of [x] with the same value
    returns as the first did and leaves the buffer of [x] as the first left
    it. *)
Theorem fill_idempotent ToString s x a els value :
  heap s !! x = Some (ONdarray a) ->
  heap s !! data a = Some (OBuffer els) ->
  isScalarMostlySafeCompatible value (dtype a) = true ->
  exists s1 s2,
    fill ToString x value s = (Return undefined, s1) /\
    fill ToString x value s1 = (Return undefined, s2) /\
    heap s2 !! data a = heap s1 !! data a.
Proof.
  intros Hx Hd Hc.
  destruct (fill_run ToString x value s a els Hx Hd Hc)
    as (e1 & s1 & He1 & Hrun1 & Hx1 & Hd1 & _).
  destruct (fill_run ToString x value s1 a _ Hx1 Hd1 Hc)
    as (e2 & s2 & He2 & Hrun2 & _ & Hd2 & _).
  assert (e2 = e1) as -> by congruence.
  exists s1, s2. split; [exact Hrun1|]. split; [exact Hrun2|].
  rewrite Hd2, Hd1. now rewrite filled_idempotent.
Qed.

Lemma fill_idempotent_witness :
  exists s1 s2,
    fill (fun _ => "10"%string) 1%positive (SFloat Double 10) float32_state =
      (Return undefined, s1) /\
    fill (fun _ => "10"%string) 1%positive (SFloat Double 10) s1 =
      (Return undefined, s2) /\
    heap s2 !! 2%positive = heap s1 !! 2%positive.
Proof.
  apply (fill_idempotent (fun _ => "10"%string) float32_state 1%positive
           float32_x (map (SFloat Single) [1; 2; 3; 4; 5]%float)
           (SFloat Double 10)); reflexivity.
Defined.

(** X4.  The last [fill] wins: after [fill( x, v1 )] and then
    [fill( x, v2 )], with both values compatible, every valid multi-index
    of [x] reads [v2] cast to the element type; nothing of [v1] is left in
    the view. *)
Theorem fill_overwrites ToString s x a v1 v2 :
  well_formed (heap s) x a ->
  isScalarMostlySafeCompatible v1 (dtype a) = true ->
  isScalarMostlySafeCompatible v2 (dtype a) = true ->
  exists s1 s2 e2,
    fill ToString x v1 s = (Return undefined, s1) /\
    fill ToString x v2 s1 = (Return undefined, s2) /\
    cast (dtype a) v2 = Some e2 /\
    forall idx, valid_index (shape a) idx -> read (heap s2) x idx = Some e2.
Proof.
  intros Hwf Hc1 Hc2.
  pose proof Hwf as [Hx (els & Hd & _)].
  pose proof (fill_run_well_formed ToString x v1 s a els x a Hx Hd Hc1 Hwf) as Hwf1.
  destruct (fill_run ToString x v1 s a els Hx Hd Hc1)
    as (e1 & s1 & _ & Hrun1 & _).
  rewrite Hrun1 in Hwf1. cbn [snd] in Hwf1.
  destruct (fill_spec ToString x v2 s1 a Hwf1 Hc2)
    as (e2 & s2 & He2 & Hrun2 & _ & _ & _ & Hread).
  exists s1, s2, e2. auto.
Qed.

Lemma fill_overwrites_witness :
  exists s1 s2 e2,
    fill (fun _ => "v"%string) 1%positive (SFloat Double 10) readme_state =
      (Return undefined, s1) /\
    fill (fun _ => "v"%string) 1%positive (SInt true W8 3) s1 =
      (Return undefined, s2) /\
    cast float64 (SInt true W8 3) = Some e2 /\
    forall idx, valid_index [3; 1; 2]%nat idx ->
      read (heap s2) 1%positive idx = Some e2.
Proof.
  apply (fill_overwrites (fun _ => "v"%string) readme_state 1%positive readme_x
           (SFloat Double 10) (SInt true W8 3)).
  - apply (well_formed_intro _ _ _ readme_buffer); reflexivity.
  - reflexivity.
  - reflexivity.
Defined.

(** X5.  A [fill] through [x] shows through every other view [y] of the
    same buffer: an index of [y] whose position a valid multi-index of [x]
    addresses reads the cast value, and an index of [y] whose position no
    valid multi-index of [x] addresses reads what it read before. *)
Theorem fill_shows_through_alias ToString s x a value y d :
  well_formed (heap s) x a ->
  isScalarMostlySafeCompatible value (dtype a) = true ->
  heap s !! y = Some (ONdarray d) ->
  data d = data a ->
  exists e s',
    cast (dtype a) value = Some e /\
    fill ToString x value s = (Return undefined, s') /\
    (forall idy idx, valid_index (shape a) idx ->
       position d idy = position a idx ->
       read (heap s') y idy = Some e) /\
    (forall idy,
       (forall idx, valid_index (shape a) idx -> position a idx <> position d idy) ->
       read (heap s') y idy = read (heap s) y idy).
Proof.
  intros [Hx (els & Hd & Hin)] Hc Hy Hdata.
  destruct (fill_run ToString x value s a els Hx Hd Hc)
    as (e & s' & He & Hrun & _ & Hd' & Hframe).
  assert (Hy' : heap s' !! y = Some (ONdarray d)).
  { rewrite Hframe; [exact Hy|eauto|congruence]. }
  exists e, s'. split; [exact He|]. split; [exact Hrun|]. split.
  - intros idy idx Hv Hp. unfold read. rewrite Hy', Hdata, Hd', Hp.
    specialize (Hin idx Hv).
    destruct (Z.leb_spec 0 (position a idx)); [|lia].
    apply filled_visited; [now apply in_traversal|exact Hin].
  - intros idy Hfree. unfold read. rewrite Hy', Hy, Hdata, Hd', Hd.
    destruct (Z.leb_spec 0 (position d idy)) as [Hpos|]; [|reflexivity].
    apply filled_not_visited. intros idx Hv%in_traversal Hp.
    apply (Hfree idx Hv). lia.
Qed.

Lemma fill_shows_through_alias_witness :
  exists e s',
    cast float64 (SFloat Double 10) = Some e /\
    fill (fun _ => "10"%string) 1%positive (SFloat Double 10) shared_buffer_state =
      (Return undefined, s') /\
    (forall idy idx, valid_index [2; 3]%nat idx ->
       position transposed_x idy = position rows_x idx ->
       read (heap s') 2%positive idy = Some e) /\
    (forall idy,
       (forall idx, valid_index [2; 3]%nat idx ->
          position rows_x idx <> position transposed_x idy) ->
       read (heap s') 2%positive idy = read (heap shared_buffer_state) 2%positive idy).
Proof.
  apply (fill_shows_through_alias (fun _ => "10"%string) shared_buffer_state
           1%positive rows_x (SFloat Double 10) 2%positive transposed_x).
  - apply (well_formed_intro _ _ _ readme_buffer); reflexivity.
  - reflexivity.
  - reflexivity.
  - reflexivity.
Defined.

(** X6.  The [order] of [x] does not change what [fill] leaves: two
    descriptors that agree on element type, shape, strides and offset, over
    buffers with the same elements, are left with the same elements in
    their buffers, whichever order each declares. *)
Theorem fill_order_irrelevant ToString s1 s2 x1 x2 a1 a2 els value :
  heap s1 !! x1 = Some (ONdarray a1) ->
  heap s1 !! data a1 = Some (OBuffer els) ->
  heap s2 !! x2 = Some (ONdarray a2) ->
  heap s2 !! data a2 = Some (OBuffer els) ->
  dtype a1 = dtype a2 ->
  shape a1 = shape a2 ->
  strides a1 = strides a2 ->
  offset a1 = offset a2 ->
  isScalarMostlySafeCompatible value (dtype a1) = true ->
  exists s1' s2' els',
    fill ToString x1 value s1 = (Return undefined, s1') /\
    fill ToString x2 value s2 = (Return undefined, s2') /\
    heap s1' !! data a1 = Some (OBuffer els') /\
    heap s2' !! data a2 = Some (OBuffer els').
Proof.
  intros Hx1 Hd1 Hx2 Hd2 Hdt Hsh Hst Hof Hc.
  destruct (fill_run ToString x1 value s1 a1 els Hx1 Hd1 Hc)
    as (e1 & s1' & He1 & Hrun1 & _ & Hb1 & _).
  rewrite Hdt in Hc.
  destruct (fill_run ToString x2 value s2 a2 els Hx2 Hd2 Hc)
    as (e2 & s2' & He2 & Hrun2 & _ & Hb2 & _).
  assert (e2 = e1) as -> by congruence.
  eexists s1', s2', _. split; [exact Hrun1|]. split; [exact Hrun2|].
  split; [exact Hb1|]. rewrite Hb2. do 2 f_equal.
  apply filled_same_visits. intros i. rewrite !visits_traversal.
  assert (Hpos : forall idx, position a2 idx = position a1 idx).
  { intros idx. unfold position. now rewrite Hst, Hof. }
  split; intros (idx & Hv & Hp); exists idx.
  - split; [now rewrite Hsh|now rewrite <- Hpos].
  - split; [now rewrite <- Hsh|now rewrite Hpos].
Qed.

Lemma fill_order_irrelevant_witness :
  exists s1' s2' els',
    fill (fun _ => "10"%string) 1%positive (SFloat Double 10) readme_state =
      (Return undefined, s1') /\
    fill (fun _ => "10"%string) 1%positive (SFloat Double 10)
      readme_state_column_major = (Return undefined, s2') /\
    heap s1' !! 2%positive = Some (OBuffer els') /\
    heap s2' !! 2%positive = Some (OBuffer els').
Proof.
  apply (fill_order_irrelevant (fun _ => "10"%string) readme_state
           readme_state_column_major 1%positive 1%positive readme_x
           readme_x_column_major readme_buffer (SFloat Double 10));
    reflexivity.
Defined.

(** ** Which values [fill] accepts *)

(** X7.  A double-precision number fills a float32 array (a downcast of the
    same kind is allowed when the output type is floating-point): [fill]
    returns, and every valid multi-index reads the number rounded to single
    precision. *)
Theorem fill_float32_with_double ToString s x a r :
  well_formed (heap s) x a ->
  dtype a = float32 ->
  exists s',
    fill ToString x (SFloat Double r) s = (Return undefined, s') /\
    forall idx, valid_index (shape a) idx ->
      read (heap s') x idx = Some (SFloat Single (fround r)).
Proof.
  intros Hwf Hdt.
  assert (Hc : isScalarMostlySafeCompatible (SFloat Double r) (dtype a) = true)
    by now rewrite Hdt.
  destruct (fill_spec ToString x _ s a Hwf Hc)
    as (e & s' & He & Hrun & _ & _ & _ & Hread).
  rewrite Hdt in He. injection He as <-.
  exists s'. split; [exact Hrun|exact Hread].
Qed.

Lemma fill_float32_with_double_witness :
  exists s',
    fill (fun _ => "16777217"%string) 1%positive (SFloat Double 16777217)
      float32_state = (Return undefined, s') /\
    forall idx, valid_index [3%nat] idx ->
      read (heap s') 1%positive idx = Some (SFloat Single (fround 16777217)).
Proof.
  apply (fill_float32_with_double (fun _ => "16777217"%string) float32_state
           1%positive float32_x 16777217%float).
  - apply (well_formed_intro _ _ _ (map (SFloat Single) [1; 2; 3; 4; 5]%float));
      reflexivity.
  - reflexivity.
Defined.

(** X8.  A double-precision complex number fills a complex64 array: [fill]
    returns, and every valid multi-index reads the complex number whose two
    components are those of the value, each rounded to single precision. *)
Theorem fill_complex64_with_complex128 ToString s x a re im :
  well_formed (heap s) x a ->
  dtype a = complex64 ->
  exists s',
    fill ToString x (SComplex Double re im) s = (Return undefined, s') /\
    forall idx, valid_index (shape a) idx ->
      read (heap s') x idx = Some (SComplex Single (fround re) (fround im)).
Proof.
  intros Hwf Hdt.
  assert (Hc : isScalarMostlySafeCompatible (SComplex Double re im) (dtype a) = true)
    by now rewrite Hdt.
  destruct (fill_spec ToString x _ s a Hwf Hc)
    as (e & s' & He & Hrun & _ & _ & _ & Hread).
  rewrite Hdt in He. injection He as <-.
  exists s'. split; [exact Hrun|exact Hread].
Qed.

Lemma fill_complex64_with_complex128_witness :
  exists s',
    fill (fun _ => "z"%string) 1%positive (SComplex Double 16777217 0.5)
      complex64_state = (Return undefined, s') /\
    forall idx, valid_index [2%nat] idx ->
      read (heap s') 1%positive idx =
      Some (SComplex Single (fround 16777217) (fround 0.5)).
Proof.
  apply (fill_complex64_with_complex128 (fun _ => "z"%string) complex64_state
           1%positive complex64_x 16777217%float 0.5%float).
  - apply (well_formed_intro _ _ _ [SComplex Single 1 2; SComplex Single 3 4]);
      reflexivity.
  - reflexivity.
Defined.

(** X9.  An integer that the destination's integer type cannot hold does
    not fill it: for a destination of an integer type and an integer value
    outside the range of that type, given as a scalar of any integer type
    that holds it, [fill] throws the TypeError of its guard and leaves the
    state as it was. *)
Theorem fill_rejects_integer_out_of_range ToString s x a sg w sg' w' n :
  heap s !! x = Some (ONdarray a) ->
  dtype a = TInt sg w ->
  int_min sg' w' <= n <= int_max sg' w' ->
  n < int_min sg w \/ int_max sg w < n ->
  fill ToString x (SInt sg' w' n) s =
    (Throw (TypeError (format template
                         [dtype_name (dtype a); ToString (SInt sg' w' n)])), s).
Proof.
  intros Hx Hdt Hin Hout. apply fill_incompatible; [exact Hx|].
  rewrite Hdt. unfold isScalarMostlySafeCompatible. cbn [natural_type].
  destruct (decide (TInt sg' w' = TInt sg w)) as [[= -> ->]|_]; [lia|].
  cbn [is_safe_cast is_same_kind_float_downcast].
  destruct (Z.leb_spec (int_min sg w) (int_min sg' w')); [|reflexivity].
  destruct (Z.leb_spec (int_max sg' w') (int_max sg w)); [lia|reflexivity].
Qed.

Lemma fill_rejects_integer_out_of_range_witness :
  fill (fun _ => "300"%string) 1%positive (SInt true W16 300) int8_state =
    (Throw (TypeError (format template ["int8"; "300"]%string)), int8_state).
Proof.
  apply (fill_rejects_integer_out_of_range (fun _ => "300"%string) int8_state
           1%positive int8_x true W8 true W16 300).
  - reflexivity.
  - reflexivity.
  - unfold int_min, int_max. simpl. lia.
  - right. unfold int_max. simpl. lia.
Defined.

(** X10.  A complex number does not fill a real array: for a destination
    whose element type is not complex and a complex scalar of either
    precision, [fill] throws the TypeError of its guard and leaves the
    state as it was. *)
Theorem fill_rejects_complex_into_real ToString s x a p re im :
  heap s !! x = Some (ONdarray a) ->
  kind (dtype a) <> complex ->
  fill ToString x (SComplex p re im) s =
    (Throw (TypeError (format template
                         [dtype_name (dtype a); ToString (SComplex p re im)])), s).
Proof.
  intros Hx Hk. apply fill_incompatible; [exact Hx|].
  unfold isScalarMostlySafeCompatible.
  destruct (dtype a); cbn in *; try congruence; reflexivity.
Qed.

Lemma fill_rejects_complex_into_real_witness :
  fill (fun _ => "1 + 2i"%string) 1%positive (SComplex Single 1 2) float32_state =
    (Throw (TypeError (format template ["float32"; "1 + 2i"]%string)),
     float32_state).
Proof.
  apply (fill_rejects_complex_into_real (fun _ => "1 + 2i"%string) float32_state
           1%positive float32_x Single 1%float 2%float).
  - reflexivity.
  - discriminate.
Defined.

(** X11.  A real number always fills a complex array: for a destination of
    complex element type that satisfies the invariant and any real scalar,
    integer or floating, of any width, [fill] returns and every valid
    multi-index reads a complex number whose imaginary component is zero. *)
Theorem fill_complex_accepts_every_real ToString s x a value :
  well_formed (heap s) x a ->
  kind (dtype a) = complex ->
  is_real value = true ->
  exists s' p re,
    fill ToString x value s = (Return undefined, s') /\
    forall idx, valid_index (shape a) idx ->
      read (heap s') x idx = Some (SComplex p re 0).
Proof.
  intros Hwf Hk Hreal.
  assert (Hc : isScalarMostlySafeCompatible value (dtype a) = true).
  { unfold isScalarMostlySafeCompatible.
    destruct (dtype a), value; try discriminate; reflexivity. }
  destruct (fill_spec ToString x value s a Hwf Hc)
    as (e & s' & He & Hrun & _ & _ & _ & Hread).
  destruct (dtype a) as [| |p]; try discriminate Hk.
  unfold cast in He. rewrite decide_False in He
    by (destruct value; try discriminate; discriminate Hreal).
  destruct value; try discriminate Hreal; injection He as <-;
    eexists s', p, _; (split; [exact Hrun|exact Hread]).
Qed.

Lemma fill_complex_accepts_every_real_witness :
  exists s' p re,
    fill (fun _ => "3"%string) 1%positive (SInt false W32 3) complex64_state =
      (Return undefined, s') /\
    forall idx, valid_index [2%nat] idx ->
      read (heap s') 1%positive idx = Some (SComplex p re 0).
Proof.
  apply (fill_complex_accepts_every_real (fun _ => "3"%string) complex64_state
           1%positive complex64_x (SInt false W32 3)).
  - apply (well_formed_intro _ _ _ [SComplex Single 1 2; SComplex Single 3 4]);
      reflexivity.
  - reflexivity.
  - reflexivity.
Defined.
